(** * WAAAH source-patching scripts: [update_repo.py] and [update_lifecycle.py]

    Both scripts read one TypeScript file, splice a block of text in front of
    an anchor line unless a marker is already present, and write the file
    back.  The development embeds

    - the three [str] operations the scripts use ([in], [replace], [+]),
    - the guarded replacement each script performs,
    - the read / patch / write cycle over a small file-system model,
    - the part of Python's tokenizer that delimits string literals, which
      decides whether a script is run at all.

    A Python [str] is a sequence of code points.  The scripts only compare
    code points for equality, so the string theory is parametric in the type
    of characters; the concrete scripts are instantiated at code points
    represented in [N]. *)

From Stdlib Require Import NArith Ascii String.
From stdpp Require Import gmap strings list.

Set Default Proof Using "Type*".

(** ** Python [str] operations *)

Section PyStr.
Context {C : Type} `{EqDecision C}.
Implicit Types (s p old new pre post : list C).

(** [s.startswith(p)]: the primitive comparison every search is built on. *)
Fixpoint startswith p s : bool :=
  match p, s with
  | [], _ => true
  | _ :: _, [] => false
  | a :: p', b :: s' => bool_decide (a = b) && startswith p' s'
  end.

(** [s.find(p)]: index of the leftmost occurrence, [None] for Python's -1. *)
Fixpoint find p s : option nat :=
  if startswith p s then Some 0
  else match s with
       | [] => None
       | _ :: s' => S <$> find p s'
       end.

(** [p in s]. *)
Definition contains p s : bool :=
  match find p s with Some _ => true | None => false end.

(** Number of positions of [s] at which [p] occurs (overlaps counted). *)
Fixpoint occurrences p s : nat :=
  (if startswith p s then 1 else 0) +
  match s with
  | [] => 0
  | _ :: s' => occurrences p s'
  end.

(** [s.replace(old, new)] for a non-empty [old]: scan left to right; at an
    occurrence of [old] emit [new] and resume after the occurrence,
    otherwise copy one character.  [skip] counts the characters of the
    current occurrence that are still to be passed over. *)
Fixpoint replace_from old new (skip : nat) s : list C :=
  match s with
  | [] => []
  | c :: s' =>
    match skip with
    | S k => replace_from old new k s'
    | O => if startswith old s
           then new ++ replace_from old new (length old - 1) s'
           else c :: replace_from old new 0 s'
    end
  end.

(** [s.replace(old, new)] with no count: every non-overlapping occurrence.
    For the empty [old] Python inserts [new] before every character and at
    the end. *)
Definition replace old new s : list C :=
  match old with
  | [] => new ++ flat_map (fun c => c :: new) s
  | _ :: _ => replace_from old new 0 s
  end.

End PyStr.


(** ** The positions [replace] rewrites

    [replace] can be read as two steps: choose the positions of the text at
    which an occurrence of [old] is rewritten, then put the new text there.
    When the new text is [ins ++ old], as in both scripts, the second step
    only inserts [ins] in front of the chosen positions. *)

Section Splice.
Context {C : Type} `{EqDecision C}.
Implicit Types (s x y old ins : list C).

(** The positions chosen by the scan of [replace_from], one flag per
    character of [s]. *)
Fixpoint replace_marks old (skip : nat) s : list bool :=
  match s with
  | [] => []
  | _ :: s' =>
    match skip with
    | S k => false :: replace_marks old k s'
    | O => if startswith old s
           then true :: replace_marks old (length old - 1) s'
           else false :: replace_marks old 0 s'
    end
  end.

(** [s] with [ins] put in front of every flagged character. *)
Fixpoint splice ins (marks : list bool) s : list C :=
  match s, marks with
  | c :: s', b :: marks' =>
    (if b then ins else []) ++ c :: splice ins marks' s'
  | _, _ => s
  end.

(** No non-empty suffix of [x] is a prefix of [y] or has [y] as a prefix:
    in no text can an occurrence of [y] begin inside an occurrence of [x]. *)
Fixpoint suffixes_incomparable x y : bool :=
  match x with
  | [] => true
  | _ :: x' =>
    negb (startswith x y) && negb (startswith y x) && suffixes_incomparable x' y
  end.

(** The number of occurrences of [old] that [replace] rewrites in [s]
    (Python's [s.count(old)] for a non-empty [old]). *)
Definition rewritten old s : nat :=
  length (filter (fun b : bool => b = true) (replace_marks old 0 s)).

End Splice.

(** ** Texts, files and the I/O of a script *)

(** Code points.  File contents, string constants and program sources are all
    [text]. *)
Abbreviation text := (list N).

(** A literal of the development as a [text] (ASCII literals only). *)
Definition py (s : string) : text := N_of_ascii <$> list_ascii_of_string s.

Definition newline : N := 10.
Definition dquote : N := 34.
Definition hash : N := 35.
Definition squote : N := 39.
Definition backslash : N := 92.

(** The exceptions a run of these scripts can end in. *)
Inductive exn := FileNotFoundError | SyntaxError.

(** What a run does to the outside, in order. *)
Inductive event :=
| EvRead (path : string)
| EvWrite (path : string) (data : text)
| EvPrint (msg : string).

(** The file system and the trace of the run.  A file is the text that
    [read()] returns for it: text mode is taken to decode and encode without
    loss (section 6 of the specification assumes as much), so encodings and
    newline translation are outside the model. *)
Record world := World { files : gmap string text; log : list event }.

(** A statement sequence: it ends in an uncaught exception or a value, and
    leaves a world. *)
Definition io (A : Type) : Type := world -> (exn + A) * world.

Definition ret {A} (a : A) : io A := fun w => (inr a, w).

Definition bind {A B} (m : io A) (k : A -> io B) : io B :=
  fun w => match m w with
           | (inr a, w') => k a w'
           | (inl e, w') => (inl e, w')
           end.

Notation "x <- m ;; k" := (bind m (fun x => k))
  (at level 100, m at next level, right associativity).
Notation "m ;;; k" := (bind m (fun _ => k))
  (at level 100, right associativity).

(** [with open(path, 'r') as f: content = f.read()] *)
Definition read_file (path : string) : io text :=
  fun w => match files w !! path with
           | Some data => (inr data, World (files w) (log w ++ [EvRead path]))
           | None => (inl FileNotFoundError, w)
           end.

(** [with open(path, 'w') as f: f.write(content)]: the file is truncated and
    rewritten whatever [content] is. *)
Definition write_file (path : string) (content : text) : io unit :=
  fun w => (inr tt, World (<[path := content]> (files w))
                          (log w ++ [EvWrite path content])).

Definition print (msg : string) : io unit :=
  fun w => (inr tt, World (files w) (log w ++ [EvPrint msg])).

(** The writes of a trace, oldest first. *)
Definition writes (l : list event) : list (string * text) :=
  omap (fun e => match e with EvWrite p d => Some (p, d) | _ => None end) l.

(** The lines printed in a trace, oldest first. *)
Definition prints (l : list event) : list string :=
  omap (fun e => match e with EvPrint msg => Some msg | _ => None end) l.

(** What a run shows to whoever started it: how it ended and what it
    printed.  The scripts return nothing and set no exit status of their
    own. *)
Definition observe (r : (exn + unit) * world) : (exn + unit) * list string :=
  (r.1, prints (log r.2)).

(** ** Delimiting of string literals by Python's tokenizer

    CPython compiles a module before it executes its first statement; when
    the tokenizer fails the run ends in [SyntaxError] and no statement is
    executed.  Of the compile step the model keeps what delimits comments and
    string literals: a [#] comment runs to the end of the line, a quote opens
    a literal (three of them a triple-quoted one), a backslash inside a
    literal protects the next character, a plain literal must close on its
    line and a triple-quoted one before the end of the file. *)

Inductive lex_state :=
| InCode
| InComment
| InString (quote : N) (opened : nat)
| InTriple (quote : N) (opened : nat).

(** [Unterminated triple line]: the literal opened on [line] never closes. *)
Inductive lex_result :=
| LexOk
| Unterminated (triple : bool) (opened : nat).

Definition is_quote (c : N) : bool := (c =? dquote)%N || (c =? squote)%N.

Fixpoint scan (st : lex_state) (skip line : nat) (s : text) : lex_result :=
  match s with
  | [] =>
    match st with
    | InCode | InComment => LexOk
    | InString _ l => Unterminated false l
    | InTriple _ l => Unterminated true l
    end
  | c :: s' =>
    let line' := if (c =? newline)%N then S line else line in
    match skip with
    | S k => scan st k line' s'
    | O =>
      match st with
      | InCode =>
        if is_quote c then
          if startswith [c; c] s' then scan (InTriple c line) 2 line' s'
          else scan (InString c line) 0 line' s'
        else if (c =? hash)%N then scan InComment 0 line' s'
        else scan InCode 0 line' s'
      | InComment =>
        scan (if (c =? newline)%N then InCode else InComment) 0 line' s'
      | InString q l =>
        if (c =? backslash)%N then scan st 1 line' s'
        else if (c =? q)%N then scan InCode 0 line' s'
        else if (c =? newline)%N then Unterminated false l
        else scan st 0 line' s'
      | InTriple q l =>
        if (c =? backslash)%N then scan st 1 line' s'
        else if startswith [q; q; q] s then scan InCode 2 line' s'
        else scan st 0 line' s'
      end
    end
  end.

Definition tokenize (source : text) : lex_result := scan InCode 0 1 source.

(** [python3 script.py]: compile, then run the module body. *)
Definition python_run (source : text) (main : io unit) : io unit :=
  fun w => match tokenize source with
           | LexOk => main w
           | Unterminated _ _ => (inl SyntaxError, w)
           end.

(** ** Patch descriptors

    Each guarded statement of the scripts has the shape
    [if marker not in content: content = content.replace(anchor, insertion + anchor)].
    The insertion always goes in front of the anchor; the scripts have no
    other placement. *)

Record PatchDescriptor := Patch {
  idempotencyMarker : text;
  anchor : text;
  insertion : text
}.

(** The value of [content] after the guarded statement. *)
Definition patch_text (d : PatchDescriptor) (content : text) : text :=
  if negb (contains (idempotencyMarker d) content)
  then replace (anchor d) (insertion d ++ anchor d) content
  else content.

(** The scripts build no outcome value.  [apply_patch] names the path a guarded
    statement takes with the tags of the specification: the guard is false
    ([AlreadyApplied]); the guard is true and [replace] finds the anchor
    ([Applied], with the new text); the guard is true and [replace] finds
    nothing ([AnchorNotFound]). *)
Inductive ApplyResult :=
| Applied (newText : text)
| AlreadyApplied
| AnchorNotFound.

Definition apply_patch (d : PatchDescriptor) (t : text) : ApplyResult :=
  if contains (idempotencyMarker d) t then AlreadyApplied
  else if contains (anchor d) t
       then Applied (replace (anchor d) (insertion d ++ anchor d) t)
       else AnchorNotFound.

(** The text a result stands for: the new text, or the input left as is. *)
Definition result_text (t : text) (r : ApplyResult) : text :=
  match r with Applied t' => t' | _ => t end.

Definition is_applied (r : ApplyResult) : bool :=
  match r with Applied _ => true | _ => false end.

(** ** [update_repo.py] *)

Module UpdateRepo.

Definition file_path : string :=
  ".worktrees/feature-task-1768089767889-rn7jmx/packages/mcp-server/src/state/task-repository.ts".

Definition interface_target : text := py
"  /** Get task history with filtering and search */".

Definition interface_insert : text := py
"  /** Get all agents that are currently assigned tasks (Active only) */
  getBusyAgentIds(): string[];
".

Definition class_target : text := py
"  getHistory(options: { status?: TaskStatus | 'ACTIVE'; limit?: number; offset?: number; agentId?: string; search?: string }): Task[] {".

Definition class_insert : text := py
"  getBusyAgentIds(): string[] {
    const rows = this.database.prepare(
      `SELECT DISTINCT assignedTo FROM tasks WHERE status IN ('ASSIGNED', 'IN_PROGRESS', 'PENDING_ACK') AND assignedTo IS NOT NULL`
    ).all() as any[];
    return rows.map(r => r.assignedTo);
  }

".

(** Lines 6-34 of the script. *)
Definition main : io unit :=
  content <- read_file file_path ;;
  let content :=
    if negb (contains interface_insert content)
    then replace interface_target (interface_insert ++ interface_target) content
    else content in
  let content :=
    if negb (contains class_insert content)
    then replace class_target (class_insert ++ class_target) content
    else content in
  write_file file_path content ;;;
  print "Updated task-repository.ts".

(** The text of the script itself. *)
Definition source : text :=
  py "
import os

file_path = " ++ [dquote] ++ py file_path ++ [dquote] ++ py "

with open(file_path, 'r') as f:
    content = f.read()

# Interface insertion
interface_target = " ++ [dquote] ++ interface_target ++ [dquote] ++ py "
interface_insert = " ++ [dquote; dquote; dquote] ++ interface_insert
  ++ [dquote; dquote; dquote] ++ py "

# Class insertion
class_target = " ++ [dquote] ++ class_target ++ [dquote] ++ py "
class_insert = " ++ [dquote; dquote; dquote] ++ class_insert
  ++ [dquote; dquote; dquote] ++ py "

if interface_insert not in content:
    content = content.replace(interface_target, interface_insert + interface_target)
    
if class_insert not in content:
    content = content.replace(class_target, class_insert + class_target)

with open(file_path, 'w') as f:
    f.write(content)
print(" ++ [dquote] ++ py "Updated task-repository.ts" ++ [dquote] ++ py ")".

Definition script : io unit := python_run source main.

(** The two guarded statements as descriptors, in program order. *)
Definition interface_patch : PatchDescriptor :=
  Patch interface_insert interface_target interface_insert.

Definition class_patch : PatchDescriptor :=
  Patch class_insert class_target class_insert.

End UpdateRepo.

(** ** [update_lifecycle.py] *)

Module UpdateLifecycle.

Definition file_path : string :=
  ".worktrees/feature-task-1768089767889-rn7jmx/packages/mcp-server/src/state/services/task-lifecycle-service.ts".

(** The text between the opening delimiter on line 10 and the quote on
    line 53. *)
Definition methods : text := py
"
  resetStaleTasks(): void {
    try {
      // Reset PENDING_ACK tasks to QUEUED
      const stale = this.repo.getByStatus('PENDING_ACK');
      for (const task of stale) {
        console.log(`[TaskLifecycle] Resetting PENDING_ACK task ${task.id} to QUEUED on startup`);
        this.updateStatus(task.id, 'QUEUED');
      }
      
      // Reset waiting agents
      this.persistence.resetWaitingAgents();
    } catch (e: any) {
      console.error(`[TaskLifecycle] Failed to reset stale state: ${e.message}`);
    }
  }

  ackTask(taskId: string, agentId: string): { success: boolean; error?: string } {
    const task = this.repo.getById(taskId);

    if (!task) {
      return { success: false, error: 'Task not found' };
    }

    if (task.status !== 'PENDING_ACK') {
      return { success: false, error: 'Task is not in PENDING_ACK state' };
    }

    const pendingAck = this.persistence.getPendingAcks().get(taskId);
    if (!pendingAck || pendingAck.agentId !== agentId) {
      return { success: false, error: `ACK failed: Expected agent ${pendingAck?.agentId} but got ${agentId}` };
    }

    // Success: Transition to ASSIGNED
    // Use updateStatus to handle history/logging and assignment
    this.updateStatus(taskId, 'ASSIGNED', undefined, agentId);
    
    // Clear pending ACK flags
    this.persistence.clearPendingAck(taskId);

    console.log(`[TaskLifecycle] Task ${taskId} ACKed by ${agentId}, now ASSIGNED`);
    return { success: true };
  }
".

Definition target : text := py
"  private persistUpdate(task: Task): void {".

(** Lines 6-62 of the script, as they read with [methods] bound to the text
    above. *)
Definition main : io unit :=
  content <- read_file file_path ;;
  let content :=
    if negb (contains (py "ackTask") content)
    then replace target ((methods ++ [newline]) ++ target) content
    else content in
  write_file file_path content ;;;
  print "Updated task-lifecycle-service.ts".

(** The text of the script itself: after [methods] comes a single quote. *)
Definition source : text :=
  py "
import os

file_path = " ++ [dquote] ++ py file_path ++ [dquote] ++ py "

with open(file_path, 'r') as f:
    content = f.read()

# Methods to add
methods = " ++ [dquote; dquote; dquote] ++ methods ++ [dquote] ++ py "

target = " ++ [dquote] ++ target ++ [dquote] ++ py "

if " ++ [dquote] ++ py "ackTask" ++ [dquote] ++ py " not in content:
    content = content.replace(target, methods + " ++ [dquote; backslash]
  ++ py "n" ++ [dquote] ++ py " + target)

with open(file_path, 'w') as f:
    f.write(content)
print(" ++ [dquote] ++ py "Updated task-lifecycle-service.ts" ++ [dquote]
  ++ py ")

".

Definition script : io unit := python_run source main.

(** The guarded statement of lines 57-58 as a descriptor. *)
Definition lifecycle_patch : PatchDescriptor :=
  Patch (py "ackTask") target (methods ++ [newline]).

End UpdateLifecycle.

(** The patches the program defines. *)
Definition program_patches : list PatchDescriptor :=
  [ UpdateLifecycle.lifecycle_patch;
    UpdateRepo.interface_patch;
    UpdateRepo.class_patch ].

(** What the three descriptors have in common: something to look for,
    something to insert, and a marker that the insertion carries. *)
Definition well_formed (d : PatchDescriptor) : Prop :=
  anchor d <> [] /\ insertion d <> [] /\
  contains (idempotencyMarker d) (insertion d) = true.

(** The shape both scripts share: read, run the guarded statements in order
    on [content], write [content] back, print. *)
Definition run_patches (ds : list PatchDescriptor) (content : text) : text :=
  fold_left (fun content d => patch_text d content) ds content.

Definition rewrite_file (path : string) (ds : list PatchDescriptor)
    (msg : string) : io unit :=
  content <- read_file path ;;
  write_file path (run_patches ds content) ;;;
  print msg.

(** The results of the guarded statements of a run, in order, each one
    computed on the text the previous statements left. *)
Fixpoint run_results (ds : list PatchDescriptor) (content : text)
    : list ApplyResult :=
  match ds with
  | [] => []
  | d :: ds' => apply_patch d content :: run_results ds' (patch_text d content)
  end.

(** The locator of the specification, for comparison: the insertion goes in
    front of the leftmost occurrence of the anchor and nowhere else. *)
Definition splice_first_only (d : PatchDescriptor) (t : text) : text :=
  match find (anchor d) t with
  | Some i => take i t ++ insertion d ++ drop i t
  | None => t
  end.

(** The scenario of the specification's section 8. *)
Module Scenario.

Definition file : text := py
"class A {
  foo() {}
}".

Definition descriptor : PatchDescriptor :=
  Patch (py "bar()") (py "foo() {}") (py "
  bar() {}").

(** The new text the specification expects from placement AFTER. *)
Definition expected_after : text := py
"class A {
  foo() {}
  bar() {}
}".

(** The new text with the insertion in front of the anchor. *)
Definition spliced_before : text := py
"class A {
  
  bar() {}foo() {}
}".

End Scenario.

(** A file system that holds the target of [update_repo.py] and nothing else,
    before any run. *)
Definition repo_world (content : text) : world :=
  World {[ UpdateRepo.file_path := content ]} [].

(** * Properties *)

(** ** Facts about the [str] operations *)

Section PyStrFacts.
Context {C : Type} `{EqDecision C}.
Implicit Types (s p old new pre post : list C).

(** *** [startswith] *)

Lemma startswith_spec p s :
  startswith p s = true <-> exists k, s = p ++ k.
Proof.
  revert s. induction p as [|a p IH]; intros s; simpl.
  - split; [intros _; by exists s | done].
  - destruct s as [|b s].
    + split; [done | intros [k Hk]; discriminate].
    + rewrite andb_true_iff, bool_decide_eq_true, IH. split.
      * intros [-> [k ->]]. by exists k.
      * intros [k Hk]. injection Hk as -> ->. eauto.
Qed.

Lemma startswith_app p k : startswith p (p ++ k) = true.
Proof. apply startswith_spec. by exists k. Qed.

Lemma startswith_length p s : startswith p s = true -> length p <= length s.
Proof.
  intros [k ->]%startswith_spec. rewrite length_app. lia.
Qed.

(** A mismatch inside the first [length p] characters is not repaired by
    what follows. *)
Lemma startswith_false_app p s k :
  length p <= length s -> startswith p s = false -> startswith p (s ++ k) = false.
Proof.
  revert s. induction p as [|a p IH]; intros [|b s]; simpl; try done; try lia.
  intros Hlen. rewrite !andb_false_iff. intros [Hab | Hp]; [by left | right].
  apply IH; [lia | done].
Qed.

Lemma startswith_true_app p s k :
  startswith p s = true -> startswith p (s ++ k) = true.
Proof.
  intros [k' ->]%startswith_spec. rewrite <- app_assoc. apply startswith_app.
Qed.

(** *** [find] and [in] *)

Lemma find_Some_0 p s : find p s = Some 0 <-> startswith p s = true.
Proof.
  destruct s as [|c s]; simpl; destruct (startswith p _) eqn:E; try done.
  destruct (find p s); simpl; split; done.
Qed.

Lemma find_cons_S p c s i :
  find p (c :: s) = Some (S i) <->
  startswith p (c :: s) = false /\ find p s = Some i.
Proof.
  cbn [find]. destruct (startswith p (c :: s)).
  - split; [done | intros [? _]; done].
  - destruct (find p s) as [j|]; simpl; split.
    + intros [= ->]. done.
    + intros [_ [= ->]]. done.
    + done.
    + intros [_ ?]; done.
Qed.

Lemma find_cons_None p c s :
  find p (c :: s) = None <-> startswith p (c :: s) = false /\ find p s = None.
Proof.
  cbn [find]. destruct (startswith p (c :: s)).
  - split; [done | intros [? _]; done].
  - destruct (find p s); simpl; split; try done. intros [_ ?]; done.
Qed.

(** The index returned by [find] is an occurrence ... *)
Lemma find_Some_split p s i :
  find p s = Some i -> s = take i s ++ p ++ drop (i + length p) s.
Proof.
  revert i. induction s as [|c s IH]; intros i.
  - simpl. destruct (startswith p []) eqn:E; [|done]. intros [= <-].
    apply startswith_spec in E as [k Hk]. symmetry in Hk.
    apply app_eq_nil in Hk as [-> ->]. done.
  - destruct i as [|i].
    + intros [k Hk]%find_Some_0%startswith_spec. rewrite Hk.
      cbn [take Nat.add app]. by rewrite drop_app_length.
    + intros [_ Hi]%find_cons_S. simpl. f_equal. by apply IH.
Qed.

(** ... and no occurrence starts to its left. *)
Lemma find_Some_leftmost p s i j :
  find p s = Some i -> j < i -> startswith p (drop j s) = false.
Proof.
  revert i j. induction s as [|c s IH]; intros i j.
  - simpl. destruct (startswith p []); [|done]. intros [= <-]. lia.
  - destruct i as [|i]; [lia|]. intros [Hc Hi]%find_cons_S Hj.
    destruct j as [|j]; [done|]. simpl. apply (IH i); [done | lia].
Qed.

Lemma find_app_pre p pre post :
  (forall j, j < length pre -> startswith p (drop j (pre ++ p ++ post)) = false) ->
  find p (pre ++ p ++ post) = Some (length pre).
Proof.
  induction pre as [|c pre IH]; intros Hleft.
  - simpl. apply find_Some_0, startswith_app.
  - simpl. apply find_cons_S. split.
    + apply (Hleft 0). simpl. lia.
    + apply IH. intros j Hj. apply (Hleft (S j)). simpl. lia.
Qed.

Lemma contains_true p s : contains p s = true <-> exists i, find p s = Some i.
Proof.
  unfold contains. destruct (find p s); split; eauto; try done.
  intros [? ?]; done.
Qed.

Lemma contains_false p s : contains p s = false <-> find p s = None.
Proof. unfold contains. destruct (find p s); split; done. Qed.

Lemma contains_app p pre post : contains p (pre ++ p ++ post) = true.
Proof.
  induction pre as [|c pre IH]; apply contains_true.
  - exists 0. apply find_Some_0, (startswith_app p post).
  - apply contains_true in IH as [i Hi].
    destruct (startswith p (c :: pre ++ p ++ post)) eqn:E.
    + exists 0. by apply find_Some_0.
    + exists (S i). by apply find_cons_S.
Qed.

(** [p in s] holds exactly when [s] splits around a copy of [p]. *)
Lemma contains_spec p s :
  contains p s = true <-> exists pre post, s = pre ++ p ++ post.
Proof.
  split.
  - intros [i Hi]%contains_true. apply find_Some_split in Hi. eauto.
  - intros (pre & post & ->). apply contains_app.
Qed.

Lemma contains_trans p q s :
  contains p q = true -> contains q s = true -> contains p s = true.
Proof.
  rewrite !contains_spec. intros (a & b & ->) (c & d & ->).
  exists (c ++ a), (b ++ d). by rewrite <- !app_assoc.
Qed.

Lemma contains_cons_false p c s :
  contains p (c :: s) = false -> contains p s = false.
Proof.
  rewrite !contains_false. by intros [_ ?]%find_cons_None.
Qed.

Lemma contains_drop_false p s n :
  contains p s = false -> contains p (drop n s) = false.
Proof.
  revert s. induction n as [|n IH]; intros [|c s]; simpl; try done.
  intros Hc%contains_cons_false. by apply IH.
Qed.

Lemma find_Some_bound p s i : find p s = Some i -> i + length p <= length s.
Proof.
  revert i. induction s as [|c s IH]; intros i.
  - simpl. destruct (startswith p []) eqn:E; [|done]. intros [= <-].
    by apply startswith_length in E.
  - destruct i as [|i].
    + intros Hsw%find_Some_0. by apply startswith_length in Hsw.
    + intros [_ Hi]%find_cons_S. apply IH in Hi. simpl. lia.
Qed.

(** Text appended on the right does not move the leftmost occurrence. *)
Lemma find_app_mono p s k i : find p s = Some i -> find p (s ++ k) = Some i.
Proof.
  revert i. induction s as [|c s IH]; intros i.
  - simpl. destruct (startswith p []) eqn:E; [|done]. intros [= <-].
    apply find_Some_0. by apply (startswith_true_app p [] k).
  - destruct i as [|i].
    + intros Hsw%find_Some_0. apply find_Some_0.
      by apply (startswith_true_app p (c :: s) k).
    + intros [Hsw Hi]%find_cons_S. simpl. apply find_cons_S. split.
      * apply (startswith_false_app p (c :: s) k); [|done].
        apply find_Some_bound in Hi. simpl. lia.
      * by apply IH.
Qed.

(** *** [occurrences] *)

Lemma occurrences_0 p s : occurrences p s = 0 <-> contains p s = false.
Proof.
  rewrite contains_false. induction s as [|c s IH].
  - simpl. destruct (startswith p []); split; done || lia.
  - rewrite find_cons_None. cbn [occurrences].
    destruct (startswith p (c :: s)).
    + split; [lia | intros [? _]; done].
    + rewrite <- IH. split; [intros ?; split; [done|lia] | intros [_ ?]; lia].
Qed.

Lemma occurrences_pos p s : contains p s = true -> 1 <= occurrences p s.
Proof.
  intros Hc. destruct (occurrences p s) eqn:E; [|lia].
  apply occurrences_0 in E. congruence.
Qed.

(** With a single occurrence, any split around a copy of [p] is the split
    at the leftmost occurrence, and [p] does not occur after it. *)
Lemma occurrences_1_split p pre post :
  p <> [] -> occurrences p (pre ++ p ++ post) = 1 ->
  find p (pre ++ p ++ post) = Some (length pre) /\ contains p post = false.
Proof.
  intros Hp. induction pre as [|c pre IH]; intros Hocc.
  - split; [apply find_Some_0, (startswith_app p post)|].
    destruct p as [|a p]; [done|]. simpl in Hocc.
    rewrite bool_decide_eq_true_2 in Hocc by done.
    rewrite (startswith_app p post) in Hocc. simpl in Hocc.
    assert (occurrences (a :: p) (p ++ post) = 0) as H0 by lia.
    apply occurrences_0 in H0.
    apply (contains_drop_false _ _ (length p)) in H0.
    by rewrite drop_app_length in H0.
  - change ((c :: pre) ++ p ++ post) with (c :: (pre ++ p ++ post)) in *.
    cbn [occurrences] in Hocc.
    pose proof (occurrences_pos p _ (contains_app p pre post)) as Hpos.
    destruct (startswith p (c :: pre ++ p ++ post)) eqn:E; [lia|].
    destruct IH as [Hfind Hpost]; [lia|]. split; [|done].
    simpl. by apply find_cons_S.
Qed.

(** *** [replace] *)

Lemma replace_from_skip old new k s :
  replace_from old new k s = replace_from old new 0 (drop k s).
Proof.
  revert k. induction s as [|c s IH]; intros [|k]; try done.
  simpl. apply IH.
Qed.

Lemma replace_from_absent old new s :
  find old s = None -> replace_from old new 0 s = s.
Proof.
  induction s as [|c s IH]; [done|].
  intros [Hsw Hs]%find_cons_None. cbn [replace_from].
  rewrite Hsw. f_equal. by apply IH.
Qed.

Lemma replace_from_first old new s i :
  old <> [] -> find old s = Some i ->
  replace_from old new 0 s =
  take i s ++ new ++ replace_from old new 0 (drop (i + length old) s).
Proof.
  intros Hold. revert i. induction s as [|c s IH]; intros i.
  - simpl. destruct (startswith old []) eqn:E; [|done].
    destruct old; done.
  - destruct i as [|i].
    + intros Hsw%find_Some_0. cbn [replace_from]. rewrite Hsw.
      rewrite replace_from_skip. destruct old as [|a old]; [done|].
      simpl. by rewrite Nat.sub_0_r.
    + intros [Hsw Hi]%find_cons_S. cbn [replace_from]. rewrite Hsw.
      simpl. f_equal. by apply IH.
Qed.

(** [replace] leaves a text without [old] as it is ... *)
Lemma replace_absent old new s :
  old <> [] -> contains old s = false -> replace old new s = s.
Proof.
  intros Hold Hc%contains_false. destruct old; [done|].
  by apply replace_from_absent.
Qed.

(** ... and otherwise rewrites the leftmost occurrence and goes on with the
    text that follows it. *)
Lemma replace_first old new s i :
  old <> [] -> find old s = Some i ->
  replace old new s =
  take i s ++ new ++ replace old new (drop (i + length old) s).
Proof.
  intros Hold Hi. destruct old as [|a old]; [done|].
  by apply replace_from_first.
Qed.

Lemma replace_split old new pre post :
  old <> [] -> find old (pre ++ old ++ post) = Some (length pre) ->
  replace old new (pre ++ old ++ post) = pre ++ new ++ replace old new post.
Proof.
  intros Hold Hi. rewrite (replace_first _ _ _ _ Hold Hi).
  rewrite take_app_length, drop_app_add', drop_app_length; done.
Qed.

(** Every segment that ends in the first [old] of its own text gets its
    [old] rewritten: [replace] is not limited to one occurrence. *)
Lemma replace_segments old new (segs : list (list C)) tail :
  old <> [] ->
  Forall (fun seg => find old (seg ++ old) = Some (length seg)) segs ->
  contains old tail = false ->
  replace old new (concat (map (fun seg => seg ++ old) segs) ++ tail) =
  concat (map (fun seg => seg ++ new) segs) ++ tail.
Proof.
  intros Hold Hsegs Htail. induction Hsegs as [|seg segs Hseg _ IH]; simpl.
  - by apply replace_absent.
  - rewrite <- !app_assoc. rewrite replace_split; [by rewrite IH | done |].
    rewrite (app_assoc seg old). by apply find_app_mono.
Qed.

(** Splicing [ins] in front of [old] never shortens the text, and lengthens
    it by at least one [ins] when [old] occurs. *)
Lemma replace_from_length old ins k s :
  old <> [] ->
  length (drop k s) <= length (replace_from old (ins ++ old) k s).
Proof.
  intros Hold. revert k. induction s as [|c s IH]; intros k; [by destruct k|].
  destruct k as [|k]; cbn [replace_from drop]; [|apply IH].
  destruct (startswith old (c :: s)) eqn:E.
  - apply startswith_length in E. specialize (IH (length old - 1)).
    rewrite length_drop in IH. rewrite !length_app. simpl in *.
    destruct old; [done|]. simpl in *. lia.
  - specialize (IH 0). rewrite drop_0 in IH. simpl. lia.
Qed.

Lemma replace_length old ins s :
  old <> [] -> length s <= length (replace old (ins ++ old) s).
Proof.
  intros Hold. destruct old as [|a old]; [done|].
  apply (replace_from_length (a :: old) ins 0 s). done.
Qed.

Lemma replace_length_grow old ins s :
  old <> [] -> contains old s = true ->
  length s + length ins <= length (replace old (ins ++ old) s).
Proof.
  intros Hold [i Hi]%contains_true.
  rewrite (replace_first _ _ _ _ Hold Hi).
  pose proof (find_Some_bound _ _ _ Hi) as Hb.
  pose proof (replace_length old ins (drop (i + length old) s) Hold) as Hr.
  rewrite length_drop in Hr.
  rewrite !length_app, length_take. lia.
Qed.

Lemma contains_replace old ins s :
  old <> [] -> contains old s = true ->
  contains (ins ++ old) (replace old (ins ++ old) s) = true.
Proof.
  intros Hold [i Hi]%contains_true.
  rewrite (replace_first _ _ _ _ Hold Hi). apply contains_app.
Qed.

(** Every text is cut in exactly this way, so [replace_segments] describes
    [replace] on all inputs. *)
Lemma startswith_app_inv p s k :
  length p <= length s -> startswith p (s ++ k) = true -> startswith p s = true.
Proof.
  intros Hlen Hsw. destruct (startswith p s) eqn:E; [done|].
  rewrite (startswith_false_app p s k Hlen E) in Hsw. done.
Qed.

Lemma find_app_inv p s k i :
  find p (s ++ k) = Some i -> i + length p <= length s -> find p s = Some i.
Proof.
  revert i. induction s as [|c s IH]; intros i Hi Hlen.
  - simpl in Hlen. assert (i = 0) as -> by lia.
    destruct p; [done | simpl in Hlen; lia].
  - destruct i as [|i].
    + apply find_Some_0. apply find_Some_0 in Hi.
      apply (startswith_app_inv p (c :: s) k); [lia | done].
    + change ((c :: s) ++ k) with (c :: (s ++ k)) in Hi.
      apply find_cons_S in Hi as [Hsw Hi]. apply find_cons_S. split.
      * destruct (startswith p (c :: s)) eqn:E; [|done].
        apply (startswith_true_app p (c :: s) k) in E. simpl in E. congruence.
      * apply IH; [done | simpl in Hlen; lia].
Qed.

Lemma segments_exist old s :
  old <> [] ->
  exists (segs : list (list C)) tail,
    s = concat (map (fun seg => seg ++ old) segs) ++ tail /\
    Forall (fun seg => find old (seg ++ old) = Some (length seg)) segs /\
    contains old tail = false.
Proof.
  intros Hold. remember (length s) as n eqn:Hn.
  revert s Hn. induction (lt_wf n) as [n _ IH]. intros s ->.
  destruct (find old s) as [i|] eqn:Hi.
  - pose proof (find_Some_bound _ _ _ Hi) as Hb.
    pose proof (find_Some_split _ _ _ Hi) as Hs.
    assert (0 < length old) as Hpos by (destruct old; [done | simpl; lia]).
    destruct (IH (length (drop (i + length old) s))
                 ltac:(rewrite length_drop; lia)
                 (drop (i + length old) s) eq_refl)
      as (segs & tail & Hrest & Hsegs & Htail).
    exists (take i s :: segs), tail. split; [|split; [|done]].
    + simpl. rewrite <- !app_assoc, <- Hrest. done.
    + constructor; [|done]. rewrite length_take, Nat.min_l by lia.
      apply (find_app_inv _ _ (drop (i + length old) s)).
      * by rewrite <- app_assoc, <- Hs.
      * rewrite length_app, length_take. lia.
  - exists [], s. split; [done|]. split; [constructor|].
    by apply contains_false.
Qed.

End PyStrFacts.

(** ** Descriptors and the guarded statement *)

Lemma contains_nil_l {C : Type} `{EqDecision C} (s : list C) :
  contains [] s = true.
Proof. unfold contains. by destruct s. Qed.

Lemma anchor_absent_nonempty (d : PatchDescriptor) (t : text) :
  contains (anchor d) t = false -> anchor d <> [].
Proof. intros Hc Hnil. rewrite Hnil, contains_nil_l in Hc. done. Qed.

(** [apply_patch] describes [patch_text]: the text after the guarded
    statement is the text of the result. *)
Lemma patch_text_result (d : PatchDescriptor) (t : text) :
  patch_text d t = result_text t (apply_patch d t).
Proof.
  unfold patch_text, apply_patch.
  destruct (contains (idempotencyMarker d) t); [done|]. simpl.
  destruct (contains (anchor d) t) eqn:Ha; [done|]. simpl.
  apply replace_absent; [|done]. by apply (anchor_absent_nonempty d t).
Qed.

Lemma patch_text_not_applied (d : PatchDescriptor) (t : text) :
  is_applied (apply_patch d t) = false -> patch_text d t = t.
Proof.
  rewrite patch_text_result. by destruct (apply_patch d t).
Qed.

Lemma patch_text_length (d : PatchDescriptor) (t : text) :
  anchor d <> [] -> length t <= length (patch_text d t).
Proof.
  intros Ha. unfold patch_text.
  destruct (negb _); [by apply replace_length | done].
Qed.

Lemma patch_text_applied_length (d : PatchDescriptor) (t : text) :
  anchor d <> [] -> is_applied (apply_patch d t) = true ->
  length t + length (insertion d) <= length (patch_text d t).
Proof.
  intros Ha. unfold patch_text, apply_patch.
  destruct (contains (idempotencyMarker d) t); [done|]. simpl.
  destruct (contains (anchor d) t) eqn:Hc; [|done].
  intros _. by apply replace_length_grow.
Qed.

(** The text changes exactly when the statement is [Applied]. *)
Lemma patch_text_changed_iff (d : PatchDescriptor) (t : text) :
  anchor d <> [] -> insertion d <> [] ->
  patch_text d t <> t <-> is_applied (apply_patch d t) = true.
Proof.
  intros Ha Hi. split.
  - intros Hne. destruct (is_applied (apply_patch d t)) eqn:E; [done|].
    by apply patch_text_not_applied in E.
  - intros Happ Heq. apply (patch_text_applied_length d t Ha) in Happ.
    rewrite Heq in Happ. destruct (insertion d); [done|]. simpl in Happ. lia.
Qed.

Lemma is_applied_iff (d : PatchDescriptor) (t : text) :
  is_applied (apply_patch d t) = true <->
  contains (idempotencyMarker d) t = false /\ contains (anchor d) t = true.
Proof.
  unfold apply_patch.
  destruct (contains (idempotencyMarker d) t), (contains (anchor d) t);
    simpl; split; (done || by intros [? ?]).
Qed.

Lemma program_patches_well_formed (d : PatchDescriptor) :
  In d program_patches -> well_formed d.
Proof.
  intros [<- | [<- | [<- | []]]]; (split; [|split]);
    done || vm_compute; reflexivity.
Qed.

(** After an application the marker is in the text. *)
Lemma marker_after_applied (d : PatchDescriptor) (t : text) :
  well_formed d -> contains (anchor d) t = true ->
  contains (idempotencyMarker d)
           (replace (anchor d) (insertion d ++ anchor d) t) = true.
Proof.
  intros (Ha & _ & Hm) Hc.
  apply (contains_trans _ (insertion d ++ anchor d)); [|by apply contains_replace].
  apply (contains_trans _ (insertion d)); [done|].
  apply contains_spec. exists [], (anchor d). done.
Qed.

Lemma idempotent_when_well_formed (d : PatchDescriptor) (t : text) :
  well_formed d ->
  patch_text d (patch_text d t) = patch_text d t /\
  apply_patch d (patch_text d t) =
    match apply_patch d t with
    | AnchorNotFound => AnchorNotFound
    | _ => AlreadyApplied
    end.
Proof.
  intros Hwf. unfold patch_text at 2 3 4, apply_patch at 2.
  destruct (contains (idempotencyMarker d) t) eqn:Hm; simpl.
  - unfold patch_text, apply_patch. by rewrite Hm.
  - destruct (contains (anchor d) t) eqn:Ha.
    + pose proof (marker_after_applied d t Hwf Ha) as Hm'.
      unfold patch_text, apply_patch. by rewrite Hm'.
    + rewrite replace_absent; [|by apply (anchor_absent_nonempty d t)|done].
      unfold patch_text, apply_patch. rewrite Hm, Ha. simpl. split; [|done].
      apply replace_absent; [by apply (anchor_absent_nonempty d t)|done].
Qed.

(** ** Idempotence *)

(** C1 (as amended).  For each patch of the program and every text: applying
    the patch to the result of applying it once leaves that result as it is;
    the second application is [AlreadyApplied] when the first was [Applied]
    or [AlreadyApplied], and [AnchorNotFound] again when the first found
    neither marker nor anchor. *)
Theorem patch_idempotent (d : PatchDescriptor) (t : text) :
  In d program_patches ->
  patch_text d (patch_text d t) = patch_text d t /\
  apply_patch d (patch_text d t) =
    match apply_patch d t with
    | AnchorNotFound => AnchorNotFound
    | _ => AlreadyApplied
    end.
Proof.
  intros Hd. apply idempotent_when_well_formed. by apply program_patches_well_formed.
Qed.

Lemma patch_idempotent_witness :
  In UpdateRepo.interface_patch program_patches /\
  patch_text UpdateRepo.interface_patch
    (patch_text UpdateRepo.interface_patch UpdateRepo.interface_target) =
  patch_text UpdateRepo.interface_patch UpdateRepo.interface_target.
Proof.
  split; [right; left; reflexivity|].
  apply (patch_idempotent UpdateRepo.interface_patch UpdateRepo.interface_target).
  right; left; reflexivity.
Defined.

(** C1 as stated fails on the empty file: nothing is inserted, and the second
    application finds no anchor, as the first did. *)
Lemma reapply_not_always_AlreadyApplied :
  ~ (forall d t, In d program_patches ->
       apply_patch d (patch_text d t) = AlreadyApplied /\
       patch_text d (patch_text d t) = patch_text d t).
Proof.
  intros H.
  destruct (H UpdateRepo.interface_patch []) as [Hr _];
    [right; left; reflexivity|].
  vm_compute in Hr. discriminate.
Qed.

(** ** Placement *)

(** C6.  When the anchor occurs exactly once and the marker is absent, the
    insertion lands immediately in front of the anchor and the text on both
    sides is kept as it is. *)
Theorem before_splice (d : PatchDescriptor) (pre post : text) :
  anchor d <> [] ->
  occurrences (anchor d) (pre ++ anchor d ++ post) = 1 ->
  contains (idempotencyMarker d) (pre ++ anchor d ++ post) = false ->
  apply_patch d (pre ++ anchor d ++ post) =
    Applied (pre ++ insertion d ++ anchor d ++ post) /\
  patch_text d (pre ++ anchor d ++ post) =
    pre ++ insertion d ++ anchor d ++ post.
Proof.
  intros Ha Hocc Hm.
  destruct (occurrences_1_split _ _ _ Ha Hocc) as [Hfind Hpost].
  assert (replace (anchor d) (insertion d ++ anchor d) (pre ++ anchor d ++ post)
          = pre ++ insertion d ++ anchor d ++ post) as Hrep.
  { rewrite replace_split by done. rewrite replace_absent by done.
    by rewrite <- app_assoc. }
  unfold apply_patch, patch_text. rewrite Hm, contains_app. simpl.
  by rewrite Hrep.
Qed.

Lemma before_splice_witness :
  apply_patch UpdateRepo.class_patch
    (py "export class R {
" ++ UpdateRepo.class_target ++ py "
  }
}") =
  Applied (py "export class R {
" ++ UpdateRepo.class_insert ++ UpdateRepo.class_target ++ py "
  }
}").
Proof.
  apply (before_splice UpdateRepo.class_patch); [done | |]; vm_compute; reflexivity.
Defined.

(** C9 (as amended).  A descriptor has no placement: the insertion always
    goes in front of the anchor.  On the scenario's file the scenario's
    anchor, insertion and marker give [Applied] with the insertion spliced
    before "foo() {}". *)
Theorem scenario_spliced_before :
  apply_patch Scenario.descriptor Scenario.file = Applied Scenario.spliced_before.
Proof. vm_compute. reflexivity. Qed.

(** C9 as stated fails: the new text is not the one placement AFTER would
    give. *)
Lemma scenario_not_after :
  apply_patch Scenario.descriptor Scenario.file <> Applied Scenario.expected_after.
Proof. vm_compute. discriminate. Qed.

(** ** Occurrences of the anchor *)

(** C3 (as amended).  [replace] has no count: the insertion goes in front of
    every occurrence of the anchor that a left-to-right scan meets, each scan
    resuming after the occurrence just rewritten.  The text is cut into
    segments, each ending in the first anchor of its own text, and a tail
    without anchor; every segment gets the insertion in front of its anchor
    and nothing else changes. *)
Theorem patch_every_occurrence (d : PatchDescriptor) (segs : list text)
    (tail : text) :
  anchor d <> [] ->
  Forall (fun seg => find (anchor d) (seg ++ anchor d) = Some (length seg)) segs ->
  contains (anchor d) tail = false ->
  contains (idempotencyMarker d)
           (concat (map (fun seg => seg ++ anchor d) segs) ++ tail) = false ->
  patch_text d (concat (map (fun seg => seg ++ anchor d) segs) ++ tail) =
  concat (map (fun seg => seg ++ insertion d ++ anchor d) segs) ++ tail.
Proof.
  intros Ha Hsegs Htail Hm. unfold patch_text. rewrite Hm. simpl.
  by apply replace_segments.
Qed.

Lemma patch_every_occurrence_witness :
  patch_text UpdateRepo.interface_patch
    (UpdateRepo.interface_target ++ [newline] ++ UpdateRepo.interface_target) =
  UpdateRepo.interface_insert ++ UpdateRepo.interface_target ++ [newline] ++
  UpdateRepo.interface_insert ++ UpdateRepo.interface_target.
Proof.
  apply (patch_every_occurrence UpdateRepo.interface_patch [[]; [newline]] []).
  - done.
  - repeat constructor; vm_compute; reflexivity.
  - vm_compute; reflexivity.
  - vm_compute; reflexivity.
Defined.

(** C3 as stated fails: with two anchors in the text both get the
    insertion, not the first one only. *)
Lemma later_occurrence_rewritten :
  ~ (forall d t, In d program_patches ->
       contains (idempotencyMarker d) t = false ->
       1 < occurrences (anchor d) t ->
       patch_text d t = splice_first_only d t).
Proof.
  intros H.
  specialize (H UpdateRepo.interface_patch
    (UpdateRepo.interface_target ++ [newline] ++ UpdateRepo.interface_target)).
  assert (forall a b : text, a = b -> length a = length b) as Hlen
    by (by intros a b ->).
  apply Hlen in H; [vm_compute in H; discriminate | | |].
  - right; left; reflexivity.
  - vm_compute; reflexivity.
  - vm_compute. lia.
Qed.

(** ** The tokenizer on the two sources *)

Lemma tokenize_update_repo : tokenize UpdateRepo.source = LexOk.
Proof. vm_compute. reflexivity. Qed.

(** C2.  The only triple quote of [update_lifecycle.py] is the one that opens
    the literal of line 10; the tokenizer reaches the end of the file inside
    that literal, so every run ends in [SyntaxError] with the world, files
    and trace, as it was. *)
Theorem update_lifecycle_is_not_run :
  occurrences [dquote; dquote; dquote] UpdateLifecycle.source = 1 /\
  tokenize UpdateLifecycle.source = Unterminated true 10 /\
  forall w : world, UpdateLifecycle.script w = (inl SyntaxError, w).
Proof.
  assert (tokenize UpdateLifecycle.source = Unterminated true 10) as Htok
    by (vm_compute; reflexivity).
  split; [vm_compute; reflexivity|]. split; [done|].
  intros w. unfold UpdateLifecycle.script, python_run. by rewrite Htok.
Qed.

(** ** Runs *)

Lemma update_repo_main_eq :
  UpdateRepo.main =
  rewrite_file UpdateRepo.file_path
    [UpdateRepo.interface_patch; UpdateRepo.class_patch]
    "Updated task-repository.ts".
Proof. reflexivity. Qed.

Lemma update_lifecycle_main_eq :
  UpdateLifecycle.main =
  rewrite_file UpdateLifecycle.file_path [UpdateLifecycle.lifecycle_patch]
    "Updated task-lifecycle-service.ts".
Proof. reflexivity. Qed.

Lemma update_repo_script_eq (w : world) :
  UpdateRepo.script w = UpdateRepo.main w.
Proof. unfold UpdateRepo.script, python_run. by rewrite tokenize_update_repo. Qed.

(** A run on an existing file: one read, one write, one line printed. *)
Lemma rewrite_file_run (path : string) (ds : list PatchDescriptor)
    (msg : string) (w : world) (content : text) :
  files w !! path = Some content ->
  rewrite_file path ds msg w =
  (inr tt,
   World (<[path := run_patches ds content]> (files w))
         (log w ++ [EvRead path; EvWrite path (run_patches ds content);
                    EvPrint msg])).
Proof.
  intros Hf. unfold rewrite_file, bind, read_file, write_file, print.
  rewrite Hf. simpl. by rewrite <- !app_assoc.
Qed.

(** A run on a missing file stops at the read. *)
Lemma rewrite_file_missing (path : string) (ds : list PatchDescriptor)
    (msg : string) (w : world) :
  files w !! path = None ->
  rewrite_file path ds msg w = (inl FileNotFoundError, w).
Proof.
  intros Hf. unfold rewrite_file, bind, read_file. by rewrite Hf.
Qed.

Lemma writes_app (l1 l2 : list event) :
  writes (l1 ++ l2) = writes l1 ++ writes l2.
Proof. unfold writes. apply omap_app. Qed.

Lemma run_patches_length (ds : list PatchDescriptor) (content : text) :
  Forall well_formed ds -> length content <= length (run_patches ds content).
Proof.
  intros Hwf. revert content.
  induction Hwf as [|d ds (Ha & _) _ IH]; intros content; simpl; [done|].
  etrans; [by apply (patch_text_length d)|]. apply IH.
Qed.

Lemma run_patches_grow (ds : list PatchDescriptor) (content : text) :
  Forall well_formed ds ->
  Exists (fun r => is_applied r = true) (run_results ds content) ->
  length content < length (run_patches ds content).
Proof.
  intros Hwf. revert content.
  induction Hwf as [|d ds (Ha & Hi & Hm) Hds IH]; intros content; simpl.
  - by intros ?%Exists_nil.
  - intros [Happ | Hex]%Exists_cons.
    + apply (patch_text_applied_length d content Ha) in Happ.
      pose proof (run_patches_length ds (patch_text d content) Hds).
      destruct (insertion d); [done|]. simpl in *. lia.
    + apply IH in Hex. pose proof (patch_text_length d content Ha). lia.
Qed.

Lemma run_patches_same (ds : list PatchDescriptor) (content : text) :
  Forall (fun r => is_applied r = false) (run_results ds content) ->
  run_patches ds content = content.
Proof.
  revert content. induction ds as [|d ds IH]; intros content; simpl; [done|].
  intros [Hd Hds]%Forall_cons. rewrite (patch_text_not_applied d content Hd) in *.
  by apply IH.
Qed.

(** The content written differs from the content read exactly when one of the
    guarded statements was [Applied]. *)
Lemma run_patches_changed_iff (ds : list PatchDescriptor) (content : text) :
  Forall well_formed ds ->
  run_patches ds content <> content <->
  Exists (fun r => is_applied r = true) (run_results ds content).
Proof.
  intros Hwf. split.
  - intros Hne.
    destruct (decide (Exists (fun r => is_applied r = true)
                             (run_results ds content))) as [|Hno]; [done|].
    exfalso. apply Hne, run_patches_same.
    apply Forall_forall. intros r Hr.
    destruct (is_applied r) eqn:E; [|done].
    exfalso. apply Hno, Exists_exists. eauto.
  - intros Hex%(run_patches_grow ds content Hwf) Heq. rewrite Heq in Hex. lia.
Qed.

Lemma update_repo_patches_well_formed :
  Forall well_formed [UpdateRepo.interface_patch; UpdateRepo.class_patch].
Proof.
  repeat constructor; apply program_patches_well_formed; simpl; tauto.
Qed.

Lemma update_lifecycle_patches_well_formed :
  Forall well_formed [UpdateLifecycle.lifecycle_patch].
Proof.
  repeat constructor; apply program_patches_well_formed; simpl; tauto.
Qed.

Lemma repo_world_lookup (content : text) :
  files (repo_world content) !! UpdateRepo.file_path = Some content.
Proof. apply lookup_singleton_eq. Qed.

Lemma update_repo_run (w : world) (content : text) :
  files w !! UpdateRepo.file_path = Some content ->
  UpdateRepo.script w =
  (inr tt,
   World (<[UpdateRepo.file_path :=
              patch_text UpdateRepo.class_patch
                (patch_text UpdateRepo.interface_patch content)]> (files w))
         (log w ++ [EvRead UpdateRepo.file_path;
                    EvWrite UpdateRepo.file_path
                      (patch_text UpdateRepo.class_patch
                         (patch_text UpdateRepo.interface_patch content));
                    EvPrint "Updated task-repository.ts"])).
Proof.
  intros Hf. rewrite update_repo_script_eq, update_repo_main_eq.
  by rewrite (rewrite_file_run _ _ _ _ _ Hf).
Qed.

(** ** What is written, and when *)

(** C10.  [update_repo.py] writes the file back on every run; what it writes
    differs from what it read exactly when the interface insertion is absent
    and its target present, or the class insertion is absent and its target
    present.  Otherwise the very content read is written back. *)
Theorem update_repo_change_iff (w : world) (content : text) :
  files w !! UpdateRepo.file_path = Some content ->
  exists written : text,
    UpdateRepo.script w =
    (inr tt,
     World (<[UpdateRepo.file_path := written]> (files w))
           (log w ++ [EvRead UpdateRepo.file_path;
                      EvWrite UpdateRepo.file_path written;
                      EvPrint "Updated task-repository.ts"])) /\
    (written <> content <->
     (contains UpdateRepo.interface_insert content = false /\
      contains UpdateRepo.interface_target content = true) \/
     (contains UpdateRepo.class_insert content = false /\
      contains UpdateRepo.class_target content = true)).
Proof.
  intros Hf. eexists. split; [by apply update_repo_run|].
  change (patch_text UpdateRepo.class_patch
            (patch_text UpdateRepo.interface_patch content))
    with (run_patches [UpdateRepo.interface_patch; UpdateRepo.class_patch] content).
  rewrite (run_patches_changed_iff _ _ update_repo_patches_well_formed).
  cbn [run_results]. rewrite Exists_cons, Exists_cons, Exists_nil.
  pose proof (is_applied_iff UpdateRepo.interface_patch content) as H1.
  pose proof (is_applied_iff UpdateRepo.class_patch content) as H2.
  cbn [idempotencyMarker anchor UpdateRepo.interface_patch
       UpdateRepo.class_patch] in H1, H2.
  rewrite <- H1, <- H2. clear H1 H2.
  destruct (is_applied (apply_patch UpdateRepo.interface_patch content)) eqn:E1.
  - split; intros _; by left.
  - rewrite (patch_text_not_applied _ _ E1). split.
    + intros [? | [? | []]]; [done | by right].
    + intros [? | ?]; [done | right; by left].
Qed.

Lemma update_repo_change_iff_witness :
  exists written : text,
    UpdateRepo.script (repo_world UpdateRepo.interface_target) =
    (inr tt,
     World (<[UpdateRepo.file_path := written]>
              (files (repo_world UpdateRepo.interface_target)))
           (log (repo_world UpdateRepo.interface_target) ++
              [EvRead UpdateRepo.file_path;
               EvWrite UpdateRepo.file_path written;
               EvPrint "Updated task-repository.ts"])) /\
    (written <> UpdateRepo.interface_target <->
     (contains UpdateRepo.interface_insert UpdateRepo.interface_target = false /\
      contains UpdateRepo.interface_target UpdateRepo.interface_target = true) \/
     (contains UpdateRepo.class_insert UpdateRepo.interface_target = false /\
      contains UpdateRepo.class_target UpdateRepo.interface_target = true)).
Proof.
  apply (update_repo_change_iff (repo_world UpdateRepo.interface_target)
           UpdateRepo.interface_target).
  vm_compute. reflexivity.
Defined.

(** C5 (as amended).  The write is not conditional: a run that reads the file
    writes it back once, whatever the results of the guarded statements
    (lines 32-33 of [update_repo.py], and the same two lines 60-61 of
    [update_lifecycle.py]).  What is conditional is the content: it differs
    from the content read only when a statement was [Applied]; with
    [AlreadyApplied] and [AnchorNotFound] alone the content read is written
    back as it is.  Only a run that cannot read the file writes nothing. *)
Theorem write_on_every_run :
  (forall (w : world) (content : text),
     files w !! UpdateRepo.file_path = Some content ->
     exists written : text,
       UpdateRepo.script w =
       (inr tt,
        World (<[UpdateRepo.file_path := written]> (files w))
              (log w ++ [EvRead UpdateRepo.file_path;
                         EvWrite UpdateRepo.file_path written;
                         EvPrint "Updated task-repository.ts"])) /\
       (written <> content <->
        Exists (fun r => is_applied r = true)
          (run_results [UpdateRepo.interface_patch; UpdateRepo.class_patch]
                       content))) /\
  (forall (w : world) (content : text),
     files w !! UpdateLifecycle.file_path = Some content ->
     exists written : text,
       UpdateLifecycle.main w =
       (inr tt,
        World (<[UpdateLifecycle.file_path := written]> (files w))
              (log w ++ [EvRead UpdateLifecycle.file_path;
                         EvWrite UpdateLifecycle.file_path written;
                         EvPrint "Updated task-lifecycle-service.ts"])) /\
       (written <> content <->
        Exists (fun r => is_applied r = true)
          (run_results [UpdateLifecycle.lifecycle_patch] content))) /\
  (forall w : world,
     files w !! UpdateRepo.file_path = None ->
     UpdateRepo.script w = (inl FileNotFoundError, w)).
Proof.
  split; [|split]; [intros w content Hf; eexists; split ..|].
  - rewrite update_repo_script_eq, update_repo_main_eq.
    by apply rewrite_file_run.
  - apply run_patches_changed_iff, update_repo_patches_well_formed.
  - rewrite update_lifecycle_main_eq. by apply rewrite_file_run.
  - apply run_patches_changed_iff, update_lifecycle_patches_well_formed.
  - intros w Hf. rewrite update_repo_script_eq, update_repo_main_eq.
    by apply rewrite_file_missing.
Qed.

Lemma write_on_every_run_witness :
  exists written : text,
    UpdateRepo.script (repo_world []) =
    (inr tt,
     World (<[UpdateRepo.file_path := written]> (files (repo_world [])))
           (log (repo_world []) ++
              [EvRead UpdateRepo.file_path;
               EvWrite UpdateRepo.file_path written;
               EvPrint "Updated task-repository.ts"])) /\
    (written <> [] <->
     Exists (fun r => is_applied r = true)
       (run_results [UpdateRepo.interface_patch; UpdateRepo.class_patch] [])).
Proof.
  apply (proj1 write_on_every_run (repo_world []) []).
  vm_compute. reflexivity.
Defined.

(** C5 as stated fails: on an empty file both statements are
    [AnchorNotFound], and the file is written all the same. *)
Lemma write_without_applied :
  ~ (forall (w : world) (content : text),
       files w !! UpdateRepo.file_path = Some content ->
       Forall (fun r => is_applied r = false)
         (run_results [UpdateRepo.interface_patch; UpdateRepo.class_patch]
                      content) ->
       writes (log (UpdateRepo.script w).2) = writes (log w)).
Proof.
  intros H. specialize (H (repo_world []) [] (repo_world_lookup [])).
  rewrite (update_repo_run _ _ (repo_world_lookup [])) in H.
  cbn [snd log repo_world app writes omap] in H.
  assert (Forall (fun r => is_applied r = false)
            (run_results [UpdateRepo.interface_patch; UpdateRepo.class_patch] []))
    as Hall by (vm_compute; repeat constructor).
  specialize (H Hall). discriminate.
Qed.

(** ** What a run reports *)

Lemma prints_app (l1 l2 : list event) :
  prints (l1 ++ l2) = prints l1 ++ prints l2.
Proof. unfold prints. apply omap_app. Qed.

(** Every run of [update_repo.py] that reads its file ends normally and
    prints the same single line, whatever the guarded statements did. *)
Lemma update_repo_observe (w : world) (content : text) :
  files w !! UpdateRepo.file_path = Some content ->
  observe (UpdateRepo.script w) =
  (inr tt, prints (log w) ++ ["Updated task-repository.ts"]).
Proof.
  intros Hf. rewrite (update_repo_run _ _ Hf). unfold observe.
  cbn [fst snd log]. by rewrite prints_app.
Qed.

Lemma patch_text_anchor_absent (d : PatchDescriptor) (t : text) :
  contains (anchor d) t = false -> patch_text d t = t.
Proof.
  intros Ha. unfold patch_text. destruct (negb _); [|done].
  apply replace_absent; [by apply (anchor_absent_nonempty d t) | done].
Qed.

Lemma patch_text_marker_present (d : PatchDescriptor) (t : text) :
  contains (idempotencyMarker d) t = true -> patch_text d t = t.
Proof. intros Hm. unfold patch_text. by rewrite Hm. Qed.

(** ** Absent anchors *)

(** C4 (as amended).  Anchor-not-found is non-destructive, and silent.  A
    text without the anchor of a statement is left as it is by that
    statement; in a run of [update_repo.py] a statement whose anchor is
    absent contributes nothing to what is written, and when both anchors are
    absent the file system is as it was.  Nothing is reported: the run ends
    normally and prints the one line it prints on every path. *)
Theorem anchor_not_found_nondestructive :
  (forall (d : PatchDescriptor) (t : text),
     contains (anchor d) t = false -> patch_text d t = t) /\
  (forall (w : world) (content : text),
     files w !! UpdateRepo.file_path = Some content ->
     (contains UpdateRepo.interface_target content = false ->
      files (UpdateRepo.script w).2 !! UpdateRepo.file_path =
        Some (patch_text UpdateRepo.class_patch content)) /\
     (contains UpdateRepo.class_target
        (patch_text UpdateRepo.interface_patch content) = false ->
      files (UpdateRepo.script w).2 !! UpdateRepo.file_path =
        Some (patch_text UpdateRepo.interface_patch content)) /\
     (contains UpdateRepo.interface_target content = false ->
      contains UpdateRepo.class_target content = false ->
      files (UpdateRepo.script w).2 = files w) /\
     observe (UpdateRepo.script w) =
       (inr tt, prints (log w) ++ ["Updated task-repository.ts"])).
Proof.
  split; [apply patch_text_anchor_absent|].
  intros w content Hf. split; [|split; [|split]].
  - intros H1. rewrite (update_repo_run _ _ Hf). cbn [snd files].
    rewrite lookup_insert_eq.
    by rewrite (patch_text_anchor_absent UpdateRepo.interface_patch).
  - intros H2. rewrite (update_repo_run _ _ Hf). cbn [snd files].
    rewrite lookup_insert_eq.
    by rewrite (patch_text_anchor_absent UpdateRepo.class_patch).
  - intros H1 H2. rewrite (update_repo_run _ _ Hf). cbn [snd files].
    rewrite (patch_text_anchor_absent UpdateRepo.interface_patch),
            (patch_text_anchor_absent UpdateRepo.class_patch) by done.
    by apply insert_id.
  - apply (update_repo_observe _ _ Hf).
Qed.

Lemma anchor_not_found_nondestructive_witness :
  files (UpdateRepo.script (repo_world (py "export {}"))).2 =
  files (repo_world (py "export {}")).
Proof.
  destruct (proj2 anchor_not_found_nondestructive
              (repo_world (py "export {}")) (py "export {}"))
    as (_ & _ & Hsame & _); [vm_compute; reflexivity|].
  apply Hsame; vm_compute; reflexivity.
Defined.

(** C4 as stated fails: nothing tells a run that found no anchor from a run
    that inserted.  On the empty file the interface anchor is not found, on a
    file that holds the anchor the insertion is made, and both runs end and
    print alike. *)
Lemma anchor_not_found_is_silent :
  ~ (forall content content' : text,
       contains UpdateRepo.interface_insert content = false ->
       contains UpdateRepo.interface_target content = false ->
       observe (UpdateRepo.script (repo_world content)) =
       observe (UpdateRepo.script (repo_world content')) ->
       contains UpdateRepo.interface_target content' = false).
Proof.
  intros H. specialize (H [] UpdateRepo.interface_target).
  rewrite (update_repo_observe _ _ (repo_world_lookup [])),
    (update_repo_observe _ _ (repo_world_lookup UpdateRepo.interface_target))
    in H.
  assert (contains UpdateRepo.interface_target UpdateRepo.interface_target
          = false) as Habs by (apply H; vm_compute; reflexivity).
  vm_compute in Habs. discriminate.
Qed.

(** ** The guard *)

(** C7 (as amended).  Marker presence forces a skip, and the skip is silent.
    A text that contains the marker of a statement anywhere is left as it is
    by that statement, wherever the anchor occurs, if at all; in a run of
    [update_repo.py] a statement whose marker is present contributes nothing
    to what is written, and when both markers are in the file the file
    system is as it was.  Nothing is reported: the run ends normally and
    prints the one line it prints on every path. *)
Theorem marker_forces_skip :
  (forall (d : PatchDescriptor) (t : text),
     contains (idempotencyMarker d) t = true -> patch_text d t = t) /\
  (forall (w : world) (content : text),
     files w !! UpdateRepo.file_path = Some content ->
     (contains UpdateRepo.interface_insert content = true ->
      files (UpdateRepo.script w).2 !! UpdateRepo.file_path =
        Some (patch_text UpdateRepo.class_patch content)) /\
     (contains UpdateRepo.class_insert
        (patch_text UpdateRepo.interface_patch content) = true ->
      files (UpdateRepo.script w).2 !! UpdateRepo.file_path =
        Some (patch_text UpdateRepo.interface_patch content)) /\
     (contains UpdateRepo.interface_insert content = true ->
      contains UpdateRepo.class_insert content = true ->
      files (UpdateRepo.script w).2 = files w) /\
     observe (UpdateRepo.script w) =
       (inr tt, prints (log w) ++ ["Updated task-repository.ts"])).
Proof.
  split; [apply patch_text_marker_present|].
  intros w content Hf. split; [|split; [|split]].
  - intros H1. rewrite (update_repo_run _ _ Hf). cbn [snd files].
    rewrite lookup_insert_eq.
    by rewrite (patch_text_marker_present UpdateRepo.interface_patch).
  - intros H2. rewrite (update_repo_run _ _ Hf). cbn [snd files].
    rewrite lookup_insert_eq.
    by rewrite (patch_text_marker_present UpdateRepo.class_patch).
  - intros H1 H2. rewrite (update_repo_run _ _ Hf). cbn [snd files].
    rewrite (patch_text_marker_present UpdateRepo.interface_patch),
            (patch_text_marker_present UpdateRepo.class_patch) by done.
    by apply insert_id.
  - apply (update_repo_observe _ _ Hf).
Qed.

Lemma marker_forces_skip_witness :
  files (UpdateRepo.script
           (repo_world (UpdateRepo.interface_insert ++
                        UpdateRepo.interface_target ++
                        UpdateRepo.class_insert ++
                        UpdateRepo.class_target))).2 =
  files (repo_world (UpdateRepo.interface_insert ++
                     UpdateRepo.interface_target ++
                     UpdateRepo.class_insert ++
                     UpdateRepo.class_target)).
Proof.
  destruct (proj2 marker_forces_skip
              (repo_world (UpdateRepo.interface_insert ++
                           UpdateRepo.interface_target ++
                           UpdateRepo.class_insert ++
                           UpdateRepo.class_target))
              (UpdateRepo.interface_insert ++ UpdateRepo.interface_target ++
               UpdateRepo.class_insert ++ UpdateRepo.class_target))
    as (_ & _ & Hsame & _); [vm_compute; reflexivity|].
  apply Hsame; vm_compute; reflexivity.
Defined.

(** C7 as stated fails: nothing tells a run that skipped from a run that
    inserted.  On a file that holds the interface insertion the statement is
    skipped, on the empty file it is not, and both runs end and print
    alike. *)
Lemma skip_is_silent :
  ~ (forall content content' : text,
       contains UpdateRepo.interface_insert content = true ->
       observe (UpdateRepo.script (repo_world content)) =
       observe (UpdateRepo.script (repo_world content')) ->
       contains UpdateRepo.interface_insert content' = true).
Proof.
  intros H. specialize (H UpdateRepo.interface_insert []).
  rewrite (update_repo_observe _ _ (repo_world_lookup [])),
    (update_repo_observe _ _ (repo_world_lookup UpdateRepo.interface_insert))
    in H.
  assert (contains UpdateRepo.interface_insert [] = true) as Habs
    by (apply H; vm_compute; reflexivity).
  vm_compute in Habs. discriminate.
Qed.

(** ** Several statements on one file *)

(** Both statements applied in one run: the class insertion is made in the
    text that already carries the interface insertion. *)
Example update_repo_both_applied :
  run_patches [UpdateRepo.interface_patch; UpdateRepo.class_patch]
    (UpdateRepo.interface_target ++ [newline] ++ UpdateRepo.class_target) =
  UpdateRepo.interface_insert ++ UpdateRepo.interface_target ++ [newline] ++
  UpdateRepo.class_insert ++ UpdateRepo.class_target.
Proof. vm_compute. reflexivity. Qed.

(** The interface anchor is absent, the class statement is applied. *)
Example update_repo_interface_absent :
  run_results [UpdateRepo.interface_patch; UpdateRepo.class_patch]
    UpdateRepo.class_target =
  [AnchorNotFound; Applied (UpdateRepo.class_insert ++ UpdateRepo.class_target)].
Proof. vm_compute. reflexivity. Qed.

(** * Further properties of the scripts *)

(** ** [replace] as an insertion at chosen positions *)

Section SpliceFacts.
Context {C : Type} `{EqDecision C}.
Implicit Types (s x y m old ins : list C).

Lemma startswith_take p s : startswith p s = true -> take (length p) s = p.
Proof.
  intros [k ->]%startswith_spec. by rewrite take_app_length.
Qed.

(** Two prefixes of one text: one is a prefix of the other. *)
Lemma startswith_comparable x y s :
  startswith x s = true -> startswith y s = true ->
  startswith x y = true \/ startswith y x = true.
Proof.
  revert y s. induction x as [|a x IH]; intros y s; [by left|].
  destruct y as [|b y]; [by right|]. destruct s as [|c s]; [done|].
  simpl. rewrite !andb_true_iff, !bool_decide_eq_true.
  intros [-> Hx] [-> Hy]. destruct (IH y s Hx Hy) as [H1 | H1]; eauto.
Qed.

Lemma startswith_app_comparable x u v :
  startswith x (u ++ v) = true ->
  startswith x u = true \/ startswith u x = true.
Proof.
  intros Hx. apply (startswith_comparable x u (u ++ v) Hx), startswith_app.
Qed.

Lemma contains_cons_iff m c s :
  contains m (c :: s) = true <->
  startswith m (c :: s) = true \/ contains m s = true.
Proof.
  destruct (startswith m (c :: s)) eqn:E.
  - split; [by left|]. intros _. apply contains_true. exists 0.
    by apply find_Some_0.
  - rewrite !contains_true. split.
    + intros [[|i] Hi]; [apply find_Some_0 in Hi; congruence|].
      apply find_cons_S in Hi as [_ Hi]. eauto.
    + intros [? | [i Hi]]; [done|]. exists (S i). by apply find_cons_S.
Qed.

Lemma contains_app_r m u s :
  contains m s = true -> contains m (u ++ s) = true.
Proof.
  rewrite !contains_spec. intros (pre & post & ->).
  exists (u ++ pre), post. by rewrite <- app_assoc.
Qed.

Lemma splice_nil_marks ins s : splice ins [] s = s.
Proof. by destruct s. Qed.

(** The scan of [replace_from] with new text [ins ++ old] inserts [ins] at
    the positions it chooses; the characters it passes over while [skip] is
    positive were already put out with the occurrence they belong to. *)
Lemma replace_from_splice old ins k s :
  old <> [] ->
  take k s ++ replace_from old (ins ++ old) k s =
  splice ins (replace_marks old k s) s.
Proof.
  intros Hold. revert k. induction s as [|c s IH]; intros k; [by destruct k|].
  destruct k as [|k]; cbn [replace_from replace_marks take].
  - destruct (startswith old (c :: s)) eqn:E; cbn [splice app].
    + rewrite <- IH, <- !app_assoc. do 2 f_equal.
      apply startswith_take in E. destruct old as [|a old]; [done|].
      simpl in E. injection E as -> E. simpl. rewrite Nat.sub_0_r.
      by rewrite E.
    + f_equal. apply (IH 0).
  - cbn [splice app]. simpl. f_equal. apply IH.
Qed.

Lemma replace_splice old ins s :
  old <> [] ->
  replace old (ins ++ old) s = splice ins (replace_marks old 0 s) s.
Proof.
  intros Hold. destruct old as [|a old]; [done|].
  by apply (replace_from_splice (a :: old) ins 0 s).
Qed.

(** A chosen position is the start of an occurrence of [old]. *)
Lemma replace_marks_valid old k s i :
  replace_marks old k s !! i = Some true -> startswith old (drop i s) = true.
Proof.
  revert k i. induction s as [|c s IH]; intros k i; [by destruct k|].
  destruct k as [|k]; cbn [replace_marks].
  - destruct (startswith old (c :: s)) eqn:E; destruct i as [|i]; simpl;
      try done; apply IH.
  - destruct i as [|i]; simpl; [done | apply IH].
Qed.

(** Nothing is taken out: the text is a subsequence of the spliced text. *)
Lemma splice_sublist ins (marks : list bool) s :
  s `sublist_of` splice ins marks s.
Proof.
  revert marks. induction s as [|c s IH]; intros [|b marks]; simpl; try done.
  apply sublist_inserts_l. by apply sublist_skip.
Qed.

Lemma replace_sublist old ins s : s `sublist_of` replace old (ins ++ old) s.
Proof.
  destruct old as [|a old].
  - simpl. rewrite app_nil_r. apply sublist_inserts_l.
    induction s as [|c s IH]; simpl; [done|].
    apply sublist_skip. by apply sublist_inserts_l.
  - rewrite replace_splice by done. apply splice_sublist.
Qed.

(** *** Occurrences that survive an insertion *)

Section Keep.
Variables (old ins : list C).

Let marks_valid (marks : list bool) s : Prop :=
  forall i, marks !! i = Some true -> startswith old (drop i s) = true.

Lemma startswith_splice_keep x s (marks : list bool) :
  marks_valid marks s ->
  suffixes_incomparable x old = true ->
  startswith x s = true -> startswith x (splice ins marks s) = true.
Proof.
  revert s marks. induction x as [|a x IH]; intros s marks Hv Hinc; [done|].
  destruct s as [|c s]; [done|]. destruct marks as [|b marks]; [done|].
  cbn [suffixes_incomparable] in Hinc.
  apply andb_true_iff in Hinc as [Hhd Hinc].
  apply andb_true_iff in Hhd as [H1 H2].
  apply negb_true_iff in H1, H2. intros Hx.
  destruct b.
  - pose proof (Hv 0 eq_refl) as Hold. simpl in Hold.
    destruct (startswith_comparable _ _ _ Hx Hold); congruence.
  - cbn [splice app]. simpl in *.
    apply andb_true_iff in Hx as [Hac Hx]. rewrite Hac. simpl.
    apply IH; [|done|done]. intros i Hi. apply (Hv (S i)). done.
Qed.

(** When no occurrence of [old] can begin inside [m] after its first
    character, an occurrence of [m] is still there after the insertions. *)
Lemma contains_splice_keep m s (marks : list bool) :
  marks_valid marks s ->
  suffixes_incomparable (tail m) old = true ->
  contains m s = true -> contains m (splice ins marks s) = true.
Proof.
  intros Hv Hinc. revert marks Hv.
  induction s as [|c s IH]; intros marks Hv; [by destruct marks|].
  destruct marks as [|b marks]; [done|]. cbn [splice].
  intros [Hsw | Hin]%contains_cons_iff; apply contains_app_r, contains_cons_iff.
  - left. destruct m as [|a m]; [done|]. simpl in *.
    apply andb_true_iff in Hsw as [-> Hsw]. simpl.
    apply startswith_splice_keep; [|done|done].
    intros i Hi. apply (Hv (S i)). done.
  - right. apply IH; [|done]. intros i Hi. apply (Hv (S i)). done.
Qed.

End Keep.

(** *** Occurrences that an insertion cannot create *)

Lemma startswith_splice_back ins x s (marks : list bool) :
  suffixes_incomparable x ins = true ->
  startswith x (splice ins marks s) = true -> startswith x s = true.
Proof.
  revert s marks. induction x as [|a x IH]; intros s marks Hinc; [done|].
  destruct s as [|c s]; [by destruct marks|].
  destruct marks as [|b marks]; [done|].
  cbn [suffixes_incomparable] in Hinc.
  apply andb_true_iff in Hinc as [Hhd Hinc].
  apply andb_true_iff in Hhd as [H1 H2].
  apply negb_true_iff in H1, H2. cbn [splice]. destruct b.
  - intros [? | ?]%startswith_app_comparable; congruence.
  - simpl. rewrite !andb_true_iff. intros [-> Hx]. split; [done|].
    by apply (IH s marks).
Qed.

Lemma contains_app_skip m ins s :
  suffixes_incomparable ins m = true ->
  contains m (ins ++ s) = true -> contains m s = true.
Proof.
  induction ins as [|e ins IH]; [done|]. intros Hinc.
  cbn [suffixes_incomparable] in Hinc.
  apply andb_true_iff in Hinc as [Hhd Hinc].
  apply andb_true_iff in Hhd as [H1 H2].
  apply negb_true_iff in H1, H2.
  change ((e :: ins) ++ s) with (e :: (ins ++ s)).
  intros [Hsw | Hin]%contains_cons_iff; [|by apply IH].
  destruct (startswith_app_comparable m (e :: ins) s Hsw); congruence.
Qed.

(** When [m] and [ins] cannot overlap in any text, an occurrence of [m] in
    the spliced text is an occurrence in the text as it was. *)
Lemma contains_splice_back ins m s (marks : list bool) :
  suffixes_incomparable m ins = true ->
  suffixes_incomparable ins m = true ->
  contains m (splice ins marks s) = true -> contains m s = true.
Proof.
  intros Hmi Him. revert marks.
  induction s as [|c s IH]; intros marks; [by destruct marks|].
  destruct marks as [|b marks]; [done|]. cbn [splice]. intros Hin.
  assert (contains m (c :: splice ins marks s) = true) as Hin'.
  { destruct b; [by apply (contains_app_skip m ins)|done]. }
  apply contains_cons_iff in Hin' as [Hsw | Hrest]; apply contains_cons_iff.
  - left. destruct m as [|a m]; [done|]. simpl in *.
    apply andb_true_iff in Hsw as [-> Hsw]. simpl.
    apply andb_true_iff in Hmi as [_ Hmi].
    by apply (startswith_splice_back ins m s marks).
  - right. by apply (IH marks).
Qed.

End SpliceFacts.

(** ** A guarded statement next to other text *)

Lemma patch_text_keeps (d : PatchDescriptor) (m t : text) :
  anchor d <> [] ->
  suffixes_incomparable (tail m) (anchor d) = true ->
  contains m t = true -> contains m (patch_text d t) = true.
Proof.
  intros Ha Hinc Hm. unfold patch_text. destruct (negb _); [|done].
  rewrite replace_splice by done.
  apply (contains_splice_keep (anchor d)); [|done|done].
  intros i. apply replace_marks_valid.
Qed.

Lemma patch_text_creates_not (d : PatchDescriptor) (m t : text) :
  anchor d <> [] ->
  suffixes_incomparable m (insertion d) = true ->
  suffixes_incomparable (insertion d) m = true ->
  contains m t = false -> contains m (patch_text d t) = false.
Proof.
  intros Ha H1 H2 Hm. unfold patch_text. destruct (negb _); [|done].
  rewrite replace_splice by done.
  destruct (contains m (splice _ _ t)) eqn:E; [|done].
  apply contains_splice_back in E; [congruence | done | done].
Qed.

(** The constants of [update_repo.py] keep out of each other's way: the
    class anchor cannot begin inside the interface insertion, and the
    interface anchor cannot overlap the class insertion. *)
Lemma update_repo_constants_apart :
  suffixes_incomparable (tail UpdateRepo.interface_insert)
                        UpdateRepo.class_target = true /\
  suffixes_incomparable UpdateRepo.interface_target
                        UpdateRepo.class_insert = true /\
  suffixes_incomparable UpdateRepo.class_insert
                        UpdateRepo.interface_target = true.
Proof. repeat split; vm_compute; reflexivity. Qed.

(** The text [update_repo.py] writes is a fixed point of its two
    statements. *)
Lemma update_repo_text_fixed (content : text) :
  let written := patch_text UpdateRepo.class_patch
                   (patch_text UpdateRepo.interface_patch content) in
  patch_text UpdateRepo.interface_patch written = written /\
  patch_text UpdateRepo.class_patch written = written.
Proof.
  intros written. subst written.
  assert (well_formed UpdateRepo.interface_patch) as Hwi
    by (apply program_patches_well_formed; simpl; tauto).
  assert (well_formed UpdateRepo.class_patch) as Hwc
    by (apply program_patches_well_formed; simpl; tauto).
  destruct update_repo_constants_apart as (Hkeep & Hback1 & Hback2).
  split; [|by apply idempotent_when_well_formed].
  set (c1 := patch_text UpdateRepo.interface_patch content) in *.
  destruct (contains UpdateRepo.interface_insert c1) eqn:Hm1.
  - unfold patch_text at 1.
    cbn [idempotencyMarker UpdateRepo.interface_patch].
    by rewrite (patch_text_keeps UpdateRepo.class_patch _ _ (proj1 Hwc) Hkeep Hm1).
  - destruct (idempotent_when_well_formed UpdateRepo.interface_patch content Hwi)
      as [_ Hre].
    fold c1 in Hre. unfold apply_patch at 1 in Hre.
    cbn [idempotencyMarker anchor UpdateRepo.interface_patch] in Hre.
    rewrite Hm1 in Hre.
    destruct (contains UpdateRepo.interface_target c1) eqn:Ha1.
    { destruct (apply_patch UpdateRepo.interface_patch content); done. }
    apply patch_text_not_applied.
    destruct (is_applied (apply_patch UpdateRepo.interface_patch
                            (patch_text UpdateRepo.class_patch c1))) eqn:E;
      [|done].
    apply is_applied_iff in E as [_ E].
    cbn [anchor UpdateRepo.interface_patch] in E.
    rewrite (patch_text_creates_not UpdateRepo.class_patch) in E;
      [done | apply Hwc | done | done | done].
Qed.

(** ** Running [update_repo.py] again *)

(** X1.  A second run of [update_repo.py] changes nothing: on the file a
    first run has written, both statements are [AlreadyApplied] or
    [AnchorNotFound], and the run writes the same content back. *)
Theorem update_repo_rerun (w : world) (content : text) :
  files w !! UpdateRepo.file_path = Some content ->
  exists written : text,
    files (UpdateRepo.script w).2 !! UpdateRepo.file_path = Some written /\
    Forall (fun r => is_applied r = false)
      (run_results [UpdateRepo.interface_patch; UpdateRepo.class_patch]
                   written) /\
    UpdateRepo.script (UpdateRepo.script w).2 =
    (inr tt,
     World (files (UpdateRepo.script w).2)
           (log (UpdateRepo.script w).2 ++
              [EvRead UpdateRepo.file_path;
               EvWrite UpdateRepo.file_path written;
               EvPrint "Updated task-repository.ts"])).
Proof.
  intros Hf. rewrite (update_repo_run _ _ Hf). cbn [snd files log].
  set (written := patch_text UpdateRepo.class_patch
                    (patch_text UpdateRepo.interface_patch content)).
  destruct (update_repo_text_fixed content) as [Hi Hc]. fold written in Hi, Hc.
  exists written. split; [apply lookup_insert_eq|]. split.
  - cbn [run_results]. rewrite Hi.
    assert (well_formed UpdateRepo.interface_patch) as (Hai & Hii & _)
      by (apply program_patches_well_formed; simpl; tauto).
    assert (well_formed UpdateRepo.class_patch) as (Hac & Hic & _)
      by (apply program_patches_well_formed; simpl; tauto).
    repeat constructor.
    + destruct (is_applied (apply_patch UpdateRepo.interface_patch written))
        eqn:E; [|done].
      by apply (patch_text_changed_iff _ _ Hai Hii) in E.
    + destruct (is_applied (apply_patch UpdateRepo.class_patch written))
        eqn:E; [|done].
      by apply (patch_text_changed_iff _ _ Hac Hic) in E.
  - rewrite (update_repo_run _ written) by apply lookup_insert_eq.
    cbn [files log]. rewrite Hi, Hc. by rewrite insert_insert_eq.
Qed.

Lemma update_repo_rerun_witness :
  exists written : text,
    files (UpdateRepo.script (repo_world UpdateRepo.class_target)).2
      !! UpdateRepo.file_path = Some written /\
    Forall (fun r => is_applied r = false)
      (run_results [UpdateRepo.interface_patch; UpdateRepo.class_patch]
                   written) /\
    UpdateRepo.script (UpdateRepo.script (repo_world UpdateRepo.class_target)).2 =
    (inr tt,
     World (files (UpdateRepo.script (repo_world UpdateRepo.class_target)).2)
           (log (UpdateRepo.script (repo_world UpdateRepo.class_target)).2 ++
              [EvRead UpdateRepo.file_path;
               EvWrite UpdateRepo.file_path written;
               EvPrint "Updated task-repository.ts"])).
Proof.
  apply (update_repo_rerun (repo_world UpdateRepo.class_target)
           UpdateRepo.class_target).
  vm_compute. reflexivity.
Defined.

(** ** What a run leaves alone *)

(** X2.  [update_repo.py] creates no file and touches no file but its
    target: after a run the file system has the same paths, and every other
    path holds what it held. *)
Theorem update_repo_frame (w : world) (content : text) :
  files w !! UpdateRepo.file_path = Some content ->
  dom (files (UpdateRepo.script w).2) = dom (files w) /\
  forall path : string,
    path <> UpdateRepo.file_path ->
    files (UpdateRepo.script w).2 !! path = files w !! path.
Proof.
  intros Hf. rewrite (update_repo_run _ _ Hf). cbn [snd files]. split.
  - rewrite dom_insert_L. apply (elem_of_dom_2 (D := gset string)) in Hf.
    apply subseteq_union_1_L. by apply singleton_subseteq_l.
  - intros path Hne. by apply lookup_insert_ne.
Qed.

Lemma update_repo_frame_witness :
  dom (files (UpdateRepo.script (repo_world [])).2) = dom (files (repo_world [])).
Proof.
  apply (update_repo_frame (repo_world []) []). vm_compute. reflexivity.
Defined.

(** X3.  The statements only insert: the text read is a subsequence of
    the text left by any sequence of guarded statements, so no character of
    the file is removed or reordered by a run. *)
Theorem patches_delete_nothing (ds : list PatchDescriptor) (content : text) :
  content `sublist_of` run_patches ds content.
Proof.
  revert content. induction ds as [|d ds IH]; intros content; simpl; [done|].
  etrans; [|apply IH]. unfold patch_text.
  destruct (negb _); [apply replace_sublist | done].
Qed.

(** X6.  A statement keeps the anchor it found: an anchor that is in the
    text before the statement is in the text after it. *)
Theorem anchor_kept (d : PatchDescriptor) (t : text) :
  contains (anchor d) t = true ->
  contains (anchor d) (patch_text d t) = true.
Proof.
  intros Ha. unfold patch_text. destruct (negb _); [|done].
  destruct (decide (anchor d = [])) as [Hnil | Hne].
  - rewrite Hnil. apply contains_nil_l.
  - apply (contains_trans _ (insertion d ++ anchor d));
      [|by apply contains_replace].
    apply contains_spec. exists (insertion d), []. by rewrite app_nil_r.
Qed.

Lemma anchor_kept_witness :
  contains UpdateLifecycle.target
    (patch_text UpdateLifecycle.lifecycle_patch
       (py "class S {
" ++ UpdateLifecycle.target ++ py "
  }
}")) = true.
Proof.
  apply (anchor_kept UpdateLifecycle.lifecycle_patch). vm_compute. reflexivity.
Defined.

(** ** How much a statement adds *)

Section Growth.
Context {C : Type} `{EqDecision C}.
Implicit Types (s old ins : list C).

Lemma replace_marks_length old k s : length (replace_marks old k s) = length s.
Proof.
  revert k. induction s as [|c s IH]; intros k; [done|].
  destruct k as [|k]; cbn [replace_marks]; [|simpl; by rewrite IH].
  destruct (startswith old (c :: s)); simpl; by rewrite IH.
Qed.

Lemma splice_length ins (marks : list bool) s :
  length marks = length s ->
  length (splice ins marks s) =
  length s + length (filter (fun b : bool => b = true) marks) * length ins.
Proof.
  revert marks. induction s as [|c s IH]; intros [|b marks] Hlen; try done.
  injection Hlen as Hlen. cbn [splice]. rewrite length_app. simpl.
  rewrite (IH marks Hlen). destruct b.
  - rewrite filter_cons_True by done. simpl. lia.
  - rewrite filter_cons_False by done. simpl. lia.
Qed.

Lemma replace_marks_le_occurrences old k s :
  length (filter (fun b : bool => b = true) (replace_marks old k s))
  <= occurrences old s.
Proof.
  revert k. induction s as [|c s IH]; intros k; [simpl; lia|].
  destruct k as [|k]; cbn [replace_marks occurrences].
  - destruct (startswith old (c :: s)).
    + rewrite filter_cons_True by done. simpl.
      specialize (IH (length old - 1)). lia.
    + rewrite filter_cons_False by done. specialize (IH 0). lia.
  - rewrite filter_cons_False by done. specialize (IH k). lia.
Qed.

Lemma rewritten_0 old s :
  old <> [] -> rewritten old s = 0 <-> contains old s = false.
Proof.
  intros Hold. split.
  - rewrite contains_false. unfold rewritten.
    induction s as [|c s IH]; cbn [replace_marks].
    + by destruct old.
    + destruct (startswith old (c :: s)) eqn:E.
      * rewrite filter_cons_True by done. done.
      * rewrite filter_cons_False by done. intros H0.
        apply find_cons_None. split; [done | by apply IH].
  - intros Hc%occurrences_0. unfold rewritten.
    pose proof (replace_marks_le_occurrences old 0 s). lia.
Qed.

End Growth.

(** X4.  When the marker is absent, a statement lengthens the text by one
    insertion for every occurrence of the anchor it rewrites; it rewrites at
    most as many as there are positions where the anchor occurs, and none
    only when the anchor is absent. *)
Theorem patch_growth (d : PatchDescriptor) (t : text) :
  anchor d <> [] ->
  contains (idempotencyMarker d) t = false ->
  length (patch_text d t) =
    length t + rewritten (anchor d) t * length (insertion d) /\
  rewritten (anchor d) t <= occurrences (anchor d) t /\
  (rewritten (anchor d) t = 0 <-> contains (anchor d) t = false).
Proof.
  intros Ha Hm. split; [|split].
  - unfold patch_text. rewrite Hm. simpl. rewrite replace_splice by done.
    apply splice_length. apply replace_marks_length.
  - apply replace_marks_le_occurrences.
  - by apply rewritten_0.
Qed.

Lemma patch_growth_witness :
  length (patch_text UpdateRepo.class_patch
            (UpdateRepo.class_target ++ [newline] ++ UpdateRepo.class_target)) =
  length (UpdateRepo.class_target ++ [newline] ++ UpdateRepo.class_target) +
  rewritten UpdateRepo.class_target
    (UpdateRepo.class_target ++ [newline] ++ UpdateRepo.class_target) *
  length UpdateRepo.class_insert.
Proof.
  apply (patch_growth UpdateRepo.class_patch
           (UpdateRepo.class_target ++ [newline] ++ UpdateRepo.class_target));
    [done | vm_compute; reflexivity].
Defined.

(** ** The two statements of [update_repo.py] side by side *)

Lemma patch_text_contains_eq (d : PatchDescriptor) (m t : text) :
  anchor d <> [] ->
  suffixes_incomparable (tail m) (anchor d) = true ->
  suffixes_incomparable m (insertion d) = true ->
  suffixes_incomparable (insertion d) m = true ->
  contains m (patch_text d t) = contains m t.
Proof.
  intros Ha Hk H1 H2. destruct (contains m t) eqn:E.
  - by apply patch_text_keeps.
  - by apply patch_text_creates_not.
Qed.

Lemma is_applied_eq (d : PatchDescriptor) (t : text) :
  is_applied (apply_patch d t) =
  negb (contains (idempotencyMarker d) t) && contains (anchor d) t.
Proof.
  unfold apply_patch.
  by destruct (contains (idempotencyMarker d) t), (contains (anchor d) t).
Qed.

(** X5.  The two statements of [update_repo.py] do not interfere.  The
    marker and the anchor of either statement are in the text after the
    other statement exactly when they were in it before, so whether a
    statement is [Applied] is decided by the file as read, in either
    order. *)
Theorem update_repo_statements_independent (content : text) :
  (contains UpdateRepo.class_insert
     (patch_text UpdateRepo.interface_patch content) =
   contains UpdateRepo.class_insert content /\
   contains UpdateRepo.class_target
     (patch_text UpdateRepo.interface_patch content) =
   contains UpdateRepo.class_target content /\
   is_applied (apply_patch UpdateRepo.class_patch
                 (patch_text UpdateRepo.interface_patch content)) =
   is_applied (apply_patch UpdateRepo.class_patch content)) /\
  (contains UpdateRepo.interface_insert
     (patch_text UpdateRepo.class_patch content) =
   contains UpdateRepo.interface_insert content /\
   contains UpdateRepo.interface_target
     (patch_text UpdateRepo.class_patch content) =
   contains UpdateRepo.interface_target content /\
   is_applied (apply_patch UpdateRepo.interface_patch
                 (patch_text UpdateRepo.class_patch content)) =
   is_applied (apply_patch UpdateRepo.interface_patch content)).
Proof.
  assert (contains UpdateRepo.class_insert
            (patch_text UpdateRepo.interface_patch content) =
          contains UpdateRepo.class_insert content) as H1
    by (apply patch_text_contains_eq; [done | vm_compute; reflexivity ..]).
  assert (contains UpdateRepo.class_target
            (patch_text UpdateRepo.interface_patch content) =
          contains UpdateRepo.class_target content) as H2
    by (apply patch_text_contains_eq; [done | vm_compute; reflexivity ..]).
  assert (contains UpdateRepo.interface_insert
            (patch_text UpdateRepo.class_patch content) =
          contains UpdateRepo.interface_insert content) as H3
    by (apply patch_text_contains_eq; [done | vm_compute; reflexivity ..]).
  assert (contains UpdateRepo.interface_target
            (patch_text UpdateRepo.class_patch content) =
          contains UpdateRepo.interface_target content) as H4
    by (apply patch_text_contains_eq; [done | vm_compute; reflexivity ..]).
  rewrite !is_applied_eq.
  cbn [idempotencyMarker anchor UpdateRepo.interface_patch
       UpdateRepo.class_patch].
  rewrite H1, H2, H3, H4. done.
Qed.

(** ** A later statement after an earlier one *)

Lemma class_statement_after_interface (content : text) :
  contains UpdateRepo.class_insert
    (patch_text UpdateRepo.interface_patch content) =
  contains UpdateRepo.class_insert content /\
  contains UpdateRepo.class_target
    (patch_text UpdateRepo.interface_patch content) =
  contains UpdateRepo.class_target content.
Proof.
  split; apply patch_text_contains_eq; done || (vm_compute; reflexivity).
Qed.

(** C8.  In [update_repo.py] the class statement works on the text the
    interface statement left, and what is written is the text after both.
    When the interface anchor is absent the class statement is still run: if
    its marker is absent and its anchor is found, the file is written with
    the class insertion in front of the anchor.  When both statements are
    eligible the file is written with both insertions, each in front of its
    anchor. *)
Theorem run_independence (w : world) (content : text) :
  files w !! UpdateRepo.file_path = Some content ->
  exists written : text,
    files (UpdateRepo.script w).2 !! UpdateRepo.file_path = Some written /\
    writes (log (UpdateRepo.script w).2) =
      writes (log w) ++ [(UpdateRepo.file_path, written)] /\
    written = patch_text UpdateRepo.class_patch
                (patch_text UpdateRepo.interface_patch content) /\
    (contains UpdateRepo.interface_target content = false ->
     contains UpdateRepo.class_insert content = false ->
     forall i : nat,
       find UpdateRepo.class_target content = Some i ->
       written =
         take i content ++ UpdateRepo.class_insert ++ UpdateRepo.class_target ++
         replace UpdateRepo.class_target
           (UpdateRepo.class_insert ++ UpdateRepo.class_target)
           (drop (i + length UpdateRepo.class_target) content) /\
       contains UpdateRepo.class_insert written = true /\
       length content + length UpdateRepo.class_insert <= length written) /\
    (contains UpdateRepo.interface_insert content = false ->
     contains UpdateRepo.interface_target content = true ->
     contains UpdateRepo.class_insert content = false ->
     contains UpdateRepo.class_target content = true ->
     contains (UpdateRepo.interface_insert ++ UpdateRepo.interface_target)
       written = true /\
     contains (UpdateRepo.class_insert ++ UpdateRepo.class_target)
       written = true /\
     length content + length UpdateRepo.interface_insert +
       length UpdateRepo.class_insert <= length written).
Proof.
  intros Hf. eexists. rewrite (update_repo_run _ _ Hf). cbn [snd files log].
  split; [apply lookup_insert_eq|]. split; [by rewrite writes_app|].
  split; [done|]. split.
  - intros Hit Hci i Hi.
    rewrite (patch_text_anchor_absent UpdateRepo.interface_patch) by done.
    assert (patch_text UpdateRepo.class_patch content =
            take i content ++ UpdateRepo.class_insert ++ UpdateRepo.class_target ++
            replace UpdateRepo.class_target
              (UpdateRepo.class_insert ++ UpdateRepo.class_target)
              (drop (i + length UpdateRepo.class_target) content)) as Heq.
    { unfold patch_text.
      cbn [idempotencyMarker anchor insertion UpdateRepo.class_patch].
      rewrite Hci. cbn [negb].
      rewrite (replace_first _ _ _ i) by done. by rewrite <- app_assoc. }
    split; [done|]. split.
    + rewrite Heq. apply contains_app.
    + apply (patch_text_applied_length UpdateRepo.class_patch); [done|].
      apply is_applied_iff. split; [done|]. apply contains_true. eauto.
  - intros Hii Hit Hci Hct.
    destruct (class_statement_after_interface content) as [Hci1 Hct1].
    rewrite Hci in Hci1. rewrite Hct in Hct1.
    set (c1 := patch_text UpdateRepo.interface_patch content) in *.
    assert (contains (UpdateRepo.interface_insert ++ UpdateRepo.interface_target)
              c1 = true) as Hboth1.
    { unfold c1, patch_text.
      cbn [idempotencyMarker anchor insertion UpdateRepo.interface_patch].
      rewrite Hii. cbn [negb]. by apply contains_replace. }
    split; [|split].
    + apply (patch_text_keeps UpdateRepo.class_patch); [done | | done].
      vm_compute. reflexivity.
    + unfold patch_text.
      cbn [idempotencyMarker anchor insertion UpdateRepo.class_patch].
      rewrite Hci1. cbn [negb]. by apply contains_replace.
    + assert (length content + length UpdateRepo.interface_insert
              <= length c1) as Hl1.
      { apply (patch_text_applied_length UpdateRepo.interface_patch); [done|].
        by apply is_applied_iff. }
      assert (length c1 + length UpdateRepo.class_insert
              <= length (patch_text UpdateRepo.class_patch c1)) as Hl2.
      { apply (patch_text_applied_length UpdateRepo.class_patch); [done|].
        by apply is_applied_iff. }
      lia.
Qed.

Lemma run_independence_witness :
  files (UpdateRepo.script (repo_world UpdateRepo.class_target)).2
    !! UpdateRepo.file_path =
  Some (UpdateRepo.class_insert ++ UpdateRepo.class_target).
Proof.
  destruct (run_independence (repo_world UpdateRepo.class_target)
              UpdateRepo.class_target)
    as (written & Hfile & _ & _ & Habsent & _); [vm_compute; reflexivity|].
  destruct (Habsent ltac:(vm_compute; reflexivity)
                    ltac:(vm_compute; reflexivity) 0
                    ltac:(vm_compute; reflexivity)) as [Heq _].
  rewrite Hfile, Heq. vm_compute. reflexivity.
Defined.
